(** * Binaryen IR (wasm.h): expression nodes, type finalization, registries

    A shallow embedding of the parts of [src/wasm.h] that the specification
    makes claims about: the kind-tag queries of [class Expression], the
    constructors of the node classes, the [finalize] rules, the local-name
    tables of [class Function], the entity registry of [class Module] and the
    size limits of [class Table] and [class Memory]. *)

From Stdlib Require Import ZArith Lia.
From stdpp Require Import base gmap strings list.

Local Open Scope Z_scope.

(** ** Machine integers

    [Index] is [uint32_t], [Address] wraps a [uint64_t]; a conversion to an
    unsigned type is reduction modulo [2^w]. *)

Definition uint32_t (z : Z) : Z := z mod 2 ^ 32.
Definition uint64_t (z : Z) : Z := z mod 2 ^ 64.

(** [typedef uint32_t Index;] *)
Definition Index (z : Z) : Z := uint32_t z.

(** [struct Address { address64_t addr; Address(uint64_t a) : addr(a) {} }] *)
Definition Address (a : Z) : Z := uint64_t a.

(** ** Names

    [Name] comes from support/name.h: an interned string that may be unset
    (a null pointer), which [Name::is()] tests.  [None] is the unset name. *)

Definition Name : Set := option string.

Definition Name_is (n : Name) : bool :=
  match n with Some _ => true | None => false end.

Definition Name_eqb (a b : Name) : bool := bool_decide (a = b).

(** ** Value types

    Modelled from the spec: [wasm::Type] is declared in wasm-type.h, which is
    not part of wasm.h.  The spec lists the basic kinds (32/64-bit integer,
    32/64-bit float, 128-bit vector, function and exception references)
    and the two sentinels "none" and "unreachable"; tuples and heap types
    are outside what the IR core needs. *)

Inductive Type_ : Set :=
| none
| unreachable
| i32
| i64
| f32
| f64
| v128
| funcref
| exnref.

#[global] Instance Type__eq_dec : EqDecision Type_.
Proof. solve_decision. Defined.

Definition Type_eqb (a b : Type_) : bool := bool_decide (a = b).

(** A concrete type is a value type: neither sentinel. *)
Definition isConcrete (t : Type_) : bool :=
  match t with
  | none | unreachable => false
  | _ => true
  end.

(** ** Outcomes of fallible operations

    The two error classes of the IR: a fatal abort (a failed [assert], a
    [WASM_UNREACHABLE], a fatal lookup, a missing required operand) and an
    explicit empty result, for which [option] is used. *)

Inductive Failure : Set :=
| Abort (msg : string)       (* WASM_UNREACHABLE(msg) *)
| AssertionFailed            (* assert(...) *)
| MissingOperand             (* a required child pointer is null *)
| NotFound.                  (* a lookup that must succeed finds nothing *)

Inductive Outcome (A : Type) : Type :=
| Ok (a : A)
| Fatal (why : Failure).

Arguments Ok {A} a.
Arguments Fatal {A} why.

(** Modelled from the spec: the macro [WASM_UNREACHABLE] comes from
    support/utilities.h, which is not part of wasm.h.  The spec describes
    invoking an unimplemented operation as a fatal, unrecoverable abort. *)
Definition WASM_UNREACHABLE {A} (msg : string) : Outcome A := Fatal (Abort msg).

(** ** Expression ids: [enum Expression::Id] *)

Inductive Id : Set :=
| InvalidId
| BlockId
| IfId
| LoopId
| BreakId
| SwitchId
| CallId
| CallIndirectId
| LocalGetId
| LocalSetId
| GlobalGetId
| GlobalSetId
| LoadId
| StoreId
| ConstId
| UnaryId
| BinaryId
| SelectId
| DropId
| ReturnId
| MemorySizeId
| MemoryGrowId
| NopId
| UnreachableId
| AtomicRMWId
| AtomicCmpxchgId
| AtomicWaitId
| AtomicNotifyId
| AtomicFenceId
| SIMDExtractId
| SIMDReplaceId
| SIMDShuffleId
| SIMDTernaryId
| SIMDShiftId
| SIMDLoadId
| MemoryInitId
| DataDropId
| MemoryCopyId
| MemoryFillId
| PopId
| RefNullId
| RefIsNullId
| RefFuncId
| RefEqId
| TryId
| ThrowId
| RethrowId
| BrOnExnId
| TupleMakeId
| TupleExtractId
| I31NewId
| I31GetId
| RefTestId
| RefCastId
| BrOnCastId
| RttCanonId
| RttSubId
| StructNewId
| StructGetId
| StructSetId
| ArrayNewId
| ArrayGetId
| ArraySetId
| ArrayLenId
| NumExpressionIds.

(** [int(id)]: the enumerators count up from [InvalidId = 0]. *)
Definition int (id : Id) : Z :=
  match id with
  | InvalidId => 0
  | BlockId => 1
  | IfId => 2
  | LoopId => 3
  | BreakId => 4
  | SwitchId => 5
  | CallId => 6
  | CallIndirectId => 7
  | LocalGetId => 8
  | LocalSetId => 9
  | GlobalGetId => 10
  | GlobalSetId => 11
  | LoadId => 12
  | StoreId => 13
  | ConstId => 14
  | UnaryId => 15
  | BinaryId => 16
  | SelectId => 17
  | DropId => 18
  | ReturnId => 19
  | MemorySizeId => 20
  | MemoryGrowId => 21
  | NopId => 22
  | UnreachableId => 23
  | AtomicRMWId => 24
  | AtomicCmpxchgId => 25
  | AtomicWaitId => 26
  | AtomicNotifyId => 27
  | AtomicFenceId => 28
  | SIMDExtractId => 29
  | SIMDReplaceId => 30
  | SIMDShuffleId => 31
  | SIMDTernaryId => 32
  | SIMDShiftId => 33
  | SIMDLoadId => 34
  | MemoryInitId => 35
  | DataDropId => 36
  | MemoryCopyId => 37
  | MemoryFillId => 38
  | PopId => 39
  | RefNullId => 40
  | RefIsNullId => 41
  | RefFuncId => 42
  | RefEqId => 43
  | TryId => 44
  | ThrowId => 45
  | RethrowId => 46
  | BrOnExnId => 47
  | TupleMakeId => 48
  | TupleExtractId => 49
  | I31NewId => 50
  | I31GetId => 51
  | RefTestId => 52
  | RefCastId => 53
  | BrOnCastId => 54
  | RttCanonId => 55
  | RttSubId => 56
  | StructNewId => 57
  | StructGetId => 58
  | StructSetId => 59
  | ArrayNewId => 60
  | ArrayGetId => 61
  | ArraySetId => 62
  | ArrayLenId => 63
  | NumExpressionIds => 64
  end.

(** ** Expression nodes

    A child pointer ([Expression*]) is an [option]: [None] is [nullptr], and
    also stands for a pointer a constructor leaves unset.  The control-flow
    classes, whose fields the finalization rules read, have a constructor
    each.  Every other class is an [Other] node: it records the kind tag and
    the output type, with the operator and immediates of the class folded
    into [op] and its child pointers into [operands]. *)

#[warnings="-register-all"]
Inductive Expression : Type :=
| Block (type : Type_) (name : Name) (list_ : list Expression)
| If (type : Type_) (condition ifTrue ifFalse : option Expression)
| Loop (type : Type_) (name : Name) (body : option Expression)
| Break (type : Type_) (name : Name) (value condition : option Expression)
| Switch (type : Type_) (targets : list Name) (default_ : Name)
         (condition value : option Expression)
| Return (type : Type_) (value : option Expression)
| Other (id : Id) (type : Type_) (op : Z) (operands : list Expression).

(** [Id _id;] fixed by [Expression(Id id) : _id(id) {}] through
    [SpecificExpression<SID>]. *)
Definition _id (e : Expression) : Id :=
  match e with
  | Block _ _ _ => BlockId
  | If _ _ _ _ => IfId
  | Loop _ _ _ => LoopId
  | Break _ _ _ _ => BreakId
  | Switch _ _ _ _ _ => SwitchId
  | Return _ _ => ReturnId
  | Other id _ _ _ => id
  end.

(** [Type type] of the base class. *)
Definition type (e : Expression) : Type_ :=
  match e with
  | Block t _ _ => t
  | If t _ _ _ => t
  | Loop t _ _ => t
  | Break t _ _ _ => t
  | Switch t _ _ _ _ => t
  | Return t _ => t
  | Other _ t _ _ => t
  end.

(** Assignment [e->type = t]. *)
Definition set_type (t : Type_) (e : Expression) : Expression :=
  match e with
  | Block _ n l => Block t n l
  | If _ c a b => If t c a b
  | Loop _ n b => Loop t n b
  | Break _ n v c => Break t n v c
  | Switch _ ts d c v => Switch t ts d c v
  | Return _ v => Return t v
  | Other id _ op l => Other id t op l
  end.

(** ** Kind-tag queries: [Expression::is], [dynCast], [cast]

    The template argument [T] enters only through [T::SpecificId], so the
    queries take that id ([is] is a reserved word, hence [is_]).  [assert]
    is modelled as compiled in: a failing assertion is fatal. *)

Definition is_ (SpecificId : Id) (e : Expression) : bool :=
  int (_id e) =? int SpecificId.

Definition dynCast (SpecificId : Id) (e : Expression) : option Expression :=
  if int (_id e) =? int SpecificId then Some e else None.

Definition cast (SpecificId : Id) (e : Expression) : Outcome Expression :=
  if int (_id e) =? int SpecificId then Ok e else Fatal AssertionFailed.

(** ** Constructors

    Every class has a constructor taking the arena; most also have a default
    constructor.  [construct k c] is the node that constructor [c] of the
    class with [SpecificId = k] builds, [None] when the class declares no
    such constructor ([InvalidId] and [NumExpressionIds] name no class). *)

Inductive Ctor : Set :=
| DefaultCtor   (* K() *)
| ArenaCtor.    (* K(MixedArena& allocator) *)

Definition isClass (k : Id) : bool :=
  match k with
  | InvalidId | NumExpressionIds => false
  | _ => true
  end.

(** Classes that declare [K(MixedArena&)] only. *)
Definition arenaOnly (k : Id) : bool :=
  match k with
  | BlockId | SwitchId | CallId | CallIndirectId
  | RefIsNullId | RefFuncId | RefEqId | TryId | ThrowId | RethrowId
  | TupleMakeId | TupleExtractId | I31NewId | I31GetId
  | RefTestId | RefCastId | BrOnCastId | RttCanonId | RttSubId
  | StructNewId | StructGetId | StructSetId
  | ArrayNewId | ArrayGetId | ArraySetId | ArrayLenId => true
  | _ => false
  end.

(** [SpecificExpression() : Expression(SID) {}] with the default member
    initializer [Type type = Type::none;]: lists start empty, names unset,
    child pointers null or unset. *)
Definition SpecificExpression (SID : Id) : Expression :=
  match SID with
  | BlockId => Block none None []
  | IfId => If none None None None
  | LoopId => Loop none None None
  | BreakId => Break none None None None
  | SwitchId => Switch none [] None None None
  | ReturnId => Return none None
  | _ => Other SID none 0 []
  end.

(** The constructor bodies that assign [type]:
    [Break(MixedArena&) : Break() { type = Type::unreachable; }] (while
    [Break()] has an empty body), [Switch(MixedArena&)], [Return()],
    [Unreachable()], [BrOnExn()] assign [Type::unreachable];
    [MemorySize()] and [MemoryGrow()] assign [Type::i32]; the arena
    constructors of the last five delegate to the default ones. *)
Definition ctorBody (k : Id) (c : Ctor) (e : Expression) : Expression :=
  match k, c with
  | BreakId, ArenaCtor => set_type unreachable e
  | BreakId, DefaultCtor => e
  | SwitchId, _ => set_type unreachable e
  | ReturnId, _ => set_type unreachable e
  | UnreachableId, _ => set_type unreachable e
  | BrOnExnId, _ => set_type unreachable e
  | MemorySizeId, _ => set_type i32 e
  | MemoryGrowId, _ => set_type i32 e
  | _, _ => e
  end.

Definition construct (k : Id) (c : Ctor) : option Expression :=
  if negb (isClass k) then None
  else match c with
       | DefaultCtor =>
           if arenaOnly k then None
           else Some (ctorBody k DefaultCtor (SpecificExpression k))
       | ArenaCtor => Some (ctorBody k ArenaCtor (SpecificExpression k))
       end.

(** The kinds whose constructors assign a type other than "none". *)
Definition typedAtConstruction : list Id :=
  [BreakId; SwitchId; ReturnId; UnreachableId; BrOnExnId;
   MemorySizeId; MemoryGrowId].

(** ** Type finalization *)

(** Branches into a label.  Modelled from the spec: the scan that
    [Block::finalize()] does over its contents is defined in wasm.cpp, which
    is not part of wasm.h.  Per the spec the branch targets are the [name]
    fields of Break and Switch nodes, referring to an enclosing block by
    name; a branch carries the type of its value, or "none" without one. *)

Definition carried (value : option Expression) : Type_ :=
  match value with
  | Some v => type v
  | None => none
  end.

Fixpoint branchTypes (target : Name) (e : Expression) : list Type_ :=
  let child (o : option Expression) :=
    match o with
    | Some c => branchTypes target c
    | None => []
    end in
  match e with
  | Block _ _ l => flat_map (branchTypes target) l
  | If _ c a b => child c ++ child a ++ child b
  | Loop _ _ b => child b
  | Break _ n v c =>
      (if Name_eqb n target then [carried v] else []) ++ child v ++ child c
  | Switch _ ts d c v =>
      (if existsb (Name_eqb target) (d :: ts) then [carried v] else [])
        ++ child c ++ child v
  | Return _ v => child v
  | Other _ _ _ l => flat_map (branchTypes target) l
  end.

(** The types carried by the branches to a block; nothing can branch to a
    block whose name is unset. *)
Definition branchesTo (name : Name) (list_ : list Expression) : list Type_ :=
  if Name_is name then flat_map (branchTypes name) list_ else [].

(** The last statement of a block is reachable when no statement before it
    has type "unreachable". *)
Definition lastReachable (list_ : list Expression) : bool :=
  forallb (fun c => negb (Type_eqb (type c) unreachable)) (removelast list_).

(** Modelled from the spec: [Block::finalize()] is declared in wasm.h and
    defined in wasm.cpp.  The spec: the type is that of the last statement if
    that statement is reachable; if the block is empty, or never reached by
    fallthrough, the type is "none" unless the whole block diverges and
    nothing breaks out of it with a concrete type, which gives
    "unreachable". *)
Definition Block_finalize (name : Name) (list_ : list Expression) : Type_ :=
  match last list_ with
  | None => none
  | Some l =>
      if lastReachable list_ then type l
      else if existsb isConcrete (branchesTo name list_) then none
           else unreachable
  end.


(** The common type of two branches, with "unreachable" as the identity
    element.  Modelled from the spec, which names no result for two branches
    without a common type; "none" is taken there. *)
Definition commonType (a b : Type_) : Type_ :=
  if Type_eqb a unreachable then b
  else if Type_eqb b unreachable then a
  else if Type_eqb a b then a
  else none.

(** Modelled from the spec: [If::finalize()] is declared in wasm.h and
    defined in wasm.cpp.  The spec: with both branches the type is their
    common type; without an else-branch it is "none" when the then-branch is
    not unreachable.  For an If without an else-branch whose then-branch is
    unreachable the spec gives two answers: "unreachable" in its rule
    (sections 4.3 and 8), "none" in its end-to-end scenario, where the
    then-branch is a Return.  Only the absent body decides, so that answer is
    the argument [thenDiverges].  A missing required operand is a fatal
    programmer error. *)
Definition If_finalize (thenDiverges : Type_)
  (condition ifTrue ifFalse : option Expression) : Outcome Type_ :=
  match condition, ifTrue with
  | Some _, Some t =>
      match ifFalse with
      | None => Ok (if Type_eqb (type t) unreachable then thenDiverges else none)
      | Some f => Ok (commonType (type t) (type f))
      end
  | _, _ => Fatal MissingOperand
  end.

(** Modelled from the spec: [Loop::finalize()] is declared in wasm.h and
    defined in wasm.cpp.  The spec: the type is governed by the body, a body
    without a value giving "none"; branches to the loop's own label carry
    no value into it. *)
Definition Loop_finalize (body : option Expression) : Outcome Type_ :=
  match body with
  | Some b => Ok (type b)
  | None => Fatal MissingOperand
  end.

(** Modelled from the spec: [Break::finalize()] and [Switch::finalize()] are
    declared in wasm.h and defined in wasm.cpp.  The spec: both divert control
    outward and always finalize to "unreachable". *)
Definition Break_finalize (value condition : option Expression) : Type_ :=
  unreachable.

Definition Switch_finalize (condition value : option Expression) : Type_ :=
  unreachable.

(** The typed-aggregate stubs:
    [void finalize() { WASM_UNREACHABLE("TODO (gc): ..."); }]. *)
Definition stubMessage (k : Id) : option string :=
  match k with
  | RefTestId => Some "TODO (gc): ref.test"%string
  | RefCastId => Some "TODO (gc): ref.cast"%string
  | BrOnCastId => Some "TODO (gc): br_on_cast"%string
  | RttCanonId => Some "TODO (gc): rtt.canon"%string
  | RttSubId => Some "TODO (gc): rtt.sub"%string
  | StructNewId => Some "TODO (gc): struct.new"%string
  | StructGetId => Some "TODO (gc): struct.get"%string
  | StructSetId => Some "TODO (gc): struct.set"%string
  | ArrayNewId => Some "TODO (gc): array.new"%string
  | ArrayGetId => Some "TODO (gc): array.get"%string
  | ArraySetId => Some "TODO (gc): array.set"%string
  | ArrayLenId => Some "TODO (gc): array.len"%string
  | _ => None
  end.

(** The kinds whose [finalize] is such a stub. *)
Definition stubKinds : list Id :=
  [RefTestId; RefCastId; BrOnCastId; RttCanonId; RttSubId;
   StructNewId; StructGetId; StructSetId;
   ArrayNewId; ArrayGetId; ArraySetId; ArrayLenId].

(** Classes that declare no [finalize] and so inherit the empty
    [void Expression::finalize() {}]; [Return] is one more of them. *)
Definition inheritsFinalize (k : Id) : bool :=
  match k with
  | NopId | LocalGetId | GlobalGetId | UnreachableId | PopId => true
  | _ => false
  end.

Section Finalize.

(** Modelled from the spec: the [finalize()] of the leaf and operator
    classes is declared in wasm.h and defined in wasm.cpp.  The spec: their
    type is determined structurally from the operator and, where
    applicable, the operand types.  A Load notes that its type "must be set
    during creation, cannot be inferred", so the rule is also given the type
    the node has: it takes the kind, the operator, the current type and the
    operand types.  The rule also gives, at [IfId] and over the types of the
    condition and the then-branch, the answer that [If_finalize] leaves
    open. *)
Variable operatorType : Id -> Z -> Type_ -> list Type_ -> Type_.

(** [e->finalize()], by the class of [e]. *)
Definition finalize (e : Expression) : Outcome Expression :=
  match e with
  | Block _ n l => Ok (Block (Block_finalize n l) n l)
  | If t0 c a b =>
      match If_finalize (operatorType IfId 0 t0 [carried c; carried a]) c a b
      with
      | Ok t => Ok (If t c a b)
      | Fatal why => Fatal why
      end
  | Loop _ n b =>
      match Loop_finalize b with
      | Ok t => Ok (Loop t n b)
      | Fatal why => Fatal why
      end
  | Break _ n v c => Ok (Break (Break_finalize v c) n v c)
  | Switch _ ts d c v => Ok (Switch (Switch_finalize c v) ts d c v)
  | Return _ _ => Ok e
  | Other k t op l =>
      match stubMessage k with
      | Some msg => WASM_UNREACHABLE msg
      | None =>
          if inheritsFinalize k then Ok e
          else Ok (Other k (operatorType k op t (map type l)) op l)
      end
  end.

End Finalize.




(** A rule to run the finalization on concrete trees: an operator node gets
    the type of its first operand, and keeps its type when it has none. *)
Definition firstOperandType (k : Id) (op : Z) (t : Type_) (ts : list Type_)
  : Type_ :=
  match ts with
  | t1 :: _ => t1
  | [] => t
  end.

(** The body of the end-to-end scenario:
    [Block[ If(LocalGet(0), Return(Const(1)), nullptr), Const(2) ]]. *)
Definition scenarioIf (ty : Type_) : Expression :=
  If ty (Some (Other LocalGetId i32 0 []))
     (Some (Return unreachable (Some (Other ConstId i32 1 [])))) None.

Definition scenarioBlock (ifType : Type_) : Expression :=
  Block none None [scenarioIf ifType; Other ConstId i32 2 []].

(** ** Functions and their local names *)

(** [struct Importable { Name module, base; bool imported(); }] *)
Record Importable : Type := mkImportable {
  module_ : Name;
  base : Name
}.

Definition imported (i : Importable) : bool := Name_is (module_ i).

(** Modelled from the spec: [Signature] is declared in wasm-type.h; the spec
    describes it as the parameter types and the result types. *)
Record Signature : Type := mkSignature {
  params : list Type_;
  results : list Type_
}.

(** [class Function : public Importable]; the debug-location tables and the
    Stack IR, which no operation below reads, are left out. *)
Record Function : Type := mkFunction {
  Function_importable : Importable;
  Function_name : Name;
  sig : Signature;
  vars : list Type_;
  body : option Expression;
  localNames : gmap Z Name;       (* std::map<Index, Name> *)
  localIndices : gmap Name Z      (* std::map<Name, Index> *)
}.

(** Modelled from the spec: the member functions of [Function] are declared
    in wasm.h and defined in wasm.cpp.  The spec: the locals are the
    parameters of the signature followed by the declared vars;
    [setLocalName] inserts or overwrites an entry in both directions;
    [clearNames] removes all entries without touching indices or types.  A
    lookup that must succeed fails fatally when the entry is absent. *)

Definition getNumParams (f : Function) : Z := Z.of_nat (length (params (sig f))).
Definition getNumVars (f : Function) : Z := Z.of_nat (length (vars f)).
Definition getNumLocals (f : Function) : Z := getNumParams f + getNumVars f.

Definition isParam (f : Function) (index : Z) : bool := index <? getNumParams f.

Definition isVar (f : Function) (index : Z) : bool :=
  (getNumParams f <=? index) && (index <? getNumLocals f).

Definition getVarIndexBase (f : Function) : Z := getNumParams f.

Definition getLocalType (f : Function) (index : Z) : Outcome Type_ :=
  if isParam f index then
    match params (sig f) !! Z.to_nat index with
    | Some t => Ok t
    | None => Fatal NotFound
    end
  else if isVar f index then
    match vars f !! Z.to_nat (index - getVarIndexBase f) with
    | Some t => Ok t
    | None => Fatal NotFound
    end
  else Fatal NotFound.

Definition hasLocalName (f : Function) (index : Z) : bool :=
  bool_decide (is_Some (localNames f !! index)).

Definition getLocalName (f : Function) (index : Z) : Outcome Name :=
  match localNames f !! index with
  | Some n => Ok n
  | None => Fatal NotFound
  end.

Definition getLocalIndex (f : Function) (name : Name) : Outcome Z :=
  match localIndices f !! name with
  | Some i => Ok i
  | None => Fatal NotFound
  end.

Definition setLocalName (index : Z) (name : Name) (f : Function) : Function :=
  {| Function_importable := Function_importable f;
     Function_name := Function_name f;
     sig := sig f;
     vars := vars f;
     body := body f;
     localNames := <[index := name]> (localNames f);
     localIndices := <[name := index]> (localIndices f) |}.

Definition clearNames (f : Function) : Function :=
  {| Function_importable := Function_importable f;
     Function_name := Function_name f;
     sig := sig f;
     vars := vars f;
     body := body f;
     localNames := ∅;
     localIndices := ∅ |}.

(** A function [(i32) -> i32] with one declared var of type i64 and no
    names, to run the operations on. *)
Definition exampleFunction : Function :=
  {| Function_importable := mkImportable None None;
     Function_name := Some "f"%string;
     sig := mkSignature [i32] [i32];
     vars := [i64];
     body := None;
     localNames := ∅;
     localIndices := ∅ |}.

(** The two name tables are inverse to each other. *)
Definition namesInverse (f : Function) : Prop :=
  forall (i : Z) (n : Name),
    localNames f !! i = Some n <-> localIndices f !! n = Some i.

(** ** Table and Memory *)

(** Modelled from the spec: [Name::fromInt] comes from support/name.h; it
    names an entity by the decimal form of an index, of which only zero is
    used here. *)
Definition Name_fromInt0 : Name := Some "0"%string.

Module Table.

(** [static const Address::address32_t kPageSize = 1;] *)
Definition kPageSize : Z := uint32_t 1.
(** [static const Index kUnlimitedSize = Index(-1);] *)
Definition kUnlimitedSize : Z := Index (-1).
(** [static const Index kMaxSize = Index(-1);] *)
Definition kMaxSize : Z := Index (-1).

Record Segment : Type := mkSegment {
  offset : option Expression;
  data : list Name
}.

Record t : Type := mk {
  importable : Importable;
  exists_ : bool;
  name : Name;
  initial : Z;          (* Address *)
  max : Z;              (* Address *)
  segments : list Segment
}.

(** [Table() { name = Name::fromInt(0); }] over the member initializers
    [exists = false], [initial = 0], [max = kMaxSize]. *)
Definition new : t :=
  {| importable := mkImportable None None;
     exists_ := false;
     name := Name_fromInt0;
     initial := Address 0;
     max := Address kMaxSize;
     segments := [] |}.

(** [bool hasMax() { return max != kUnlimitedSize; }]: the [Address]
    converts to its [uint64_t], the [Index] is promoted to it. *)
Definition hasMax (tb : t) : bool := negb (max tb =? uint64_t kUnlimitedSize).

End Table.

Module Memory.

(** [static const Address::address32_t kPageSize = 64 * 1024;] *)
Definition kPageSize : Z := uint32_t (64 * 1024).
(** [static const Address::address64_t kUnlimitedSize = Address::address64_t(-1);] *)
Definition kUnlimitedSize : Z := uint64_t (-1).
(** [static const Address::address32_t kMaxSize32 =
      (uint64_t(4) * 1024 * 1024 * 1024) / kPageSize;] *)
Definition kMaxSize32 : Z :=
  uint32_t (uint64_t (uint64_t 4 * 1024 * 1024 * 1024) / uint64_t kPageSize).

Record Segment : Type := mkSegment {
  isPassive : bool;
  offset : option Expression;
  data : list Z            (* std::vector<char> *)
}.

Record t : Type := mk {
  importable : Importable;
  exists_ : bool;
  name : Name;
  initial : Z;          (* Address, in pages *)
  max : Z;              (* Address, in pages *)
  segments : list Segment;
  shared : bool;
  indexType : Type_
}.

(** [Memory() { name = Name::fromInt(0); }] over the member initializers
    [exists = false], [initial = 0], [max = kMaxSize32], [shared = false],
    [indexType = Type::i32]. *)
Definition new : t :=
  {| importable := mkImportable None None;
     exists_ := false;
     name := Name_fromInt0;
     initial := Address 0;
     max := Address kMaxSize32;
     segments := [];
     shared := false;
     indexType := i32 |}.

(** [bool hasMax() { return max != kUnlimitedSize; }] *)
Definition hasMax (mem : t) : bool := negb (max mem =? kUnlimitedSize).

(** [bool is64() { return indexType == Type::i64; }] *)
Definition is64 (mem : t) : bool := Type_eqb (indexType mem) i64.

End Memory.

(** ** Module-level entities *)

Inductive ExternalKind : Set :=
| ExternalFunction   (* = 0 *)
| ExternalTable      (* = 1 *)
| ExternalMemory     (* = 2 *)
| ExternalGlobal     (* = 3 *)
| ExternalEvent      (* = 4 *)
| ExternalInvalid.   (* = -1 *)

(** [class Export]: [name] is the exported name, the key; [value] is the
    internal name. *)
Record Export_ : Type := mkExport {
  Export_name : Name;
  value : Name;
  kind : ExternalKind
}.

(** [class Global : public Importable] *)
Record Global_ : Type := mkGlobal {
  Global_importable : Importable;
  Global_name : Name;
  Global_type : Type_;
  init : option Expression;
  mutable_ : bool
}.

(** [class Event : public Importable] *)
Record Event : Type := mkEvent {
  Event_importable : Importable;
  Event_name : Name;
  attribute : Z;
  Event_sig : Signature
}.

(** [class Module]: the owning sequences and the private lookup maps; an
    entity value stands for the object a [unique_ptr] of the sequence owns
    and a raw pointer of the map refers to.  User sections, debug file names,
    features and the arena are left out. *)
Record Module_ : Type := mkModule {
  exports : list Export_;
  functions : list Function;
  globals : list Global_;
  events : list Event;
  table : Table.t;
  memory : Memory.t;
  start : Name;
  Module_name : Name;
  exportsMap : gmap Name Export_;
  functionsMap : gmap Name Function;
  globalsMap : gmap Name Global_;
  eventsMap : gmap Name Event
}.

(** [Module() = default;] *)
Definition Module_new : Module_ :=
  {| exports := []; functions := []; globals := []; events := [];
     table := Table.new; memory := Memory.new;
     start := None; Module_name := None;
     exportsMap := ∅; functionsMap := ∅; globalsMap := ∅; eventsMap := ∅ |}.

(** Modelled from the spec: the registry operations of [Module] are declared
    in wasm.h and defined in wasm.cpp.  The spec: [add] inserts the entity into
    the owning sequence and into the lookup map under its current name (no
    guard against a name already present); [get] returns the entity and
    fails fatally if it is absent; [getOrNull] returns an empty result
    instead; [remove] removes from both the sequence and the map. *)

Section ModuleElements.

Context {Elem : Type} (nameOf : Elem -> Name).

Definition getModuleElementOrNull (m : gmap Name Elem) (name : Name)
  : option Elem := m !! name.

Definition getModuleElement (m : gmap Name Elem) (name : Name)
  : Outcome Elem :=
  match getModuleElementOrNull m name with
  | Some e => Ok e
  | None => Fatal NotFound
  end.

Definition addModuleElement (v : list Elem) (m : gmap Name Elem) (curr : Elem)
  : list Elem * gmap Name Elem :=
  (v ++ [curr], <[nameOf curr := curr]> m).

Definition removeModuleElement (v : list Elem) (m : gmap Name Elem)
  (name : Name) : list Elem * gmap Name Elem :=
  (filter (fun e => nameOf e <> name) v, delete name m).

End ModuleElements.

Definition setExports (M : Module_) (r : list Export_ * gmap Name Export_)
  : Module_ :=
  {| exports := r.1; functions := functions M; globals := globals M;
     events := events M; table := table M; memory := memory M;
     start := start M; Module_name := Module_name M;
     exportsMap := r.2; functionsMap := functionsMap M;
     globalsMap := globalsMap M; eventsMap := eventsMap M |}.

Definition setFunctions (M : Module_) (r : list Function * gmap Name Function)
  : Module_ :=
  {| exports := exports M; functions := r.1; globals := globals M;
     events := events M; table := table M; memory := memory M;
     start := start M; Module_name := Module_name M;
     exportsMap := exportsMap M; functionsMap := r.2;
     globalsMap := globalsMap M; eventsMap := eventsMap M |}.

Definition setGlobals (M : Module_) (r : list Global_ * gmap Name Global_)
  : Module_ :=
  {| exports := exports M; functions := functions M; globals := r.1;
     events := events M; table := table M; memory := memory M;
     start := start M; Module_name := Module_name M;
     exportsMap := exportsMap M; functionsMap := functionsMap M;
     globalsMap := r.2; eventsMap := eventsMap M |}.

Definition setEvents (M : Module_) (r : list Event * gmap Name Event)
  : Module_ :=
  {| exports := exports M; functions := functions M; globals := globals M;
     events := r.1; table := table M; memory := memory M;
     start := start M; Module_name := Module_name M;
     exportsMap := exportsMap M; functionsMap := functionsMap M;
     globalsMap := globalsMap M; eventsMap := r.2 |}.

Definition getExport (M : Module_) (name : Name) : Outcome Export_ :=
  getModuleElement (exportsMap M) name.
Definition getFunction (M : Module_) (name : Name) : Outcome Function :=
  getModuleElement (functionsMap M) name.
Definition getGlobal (M : Module_) (name : Name) : Outcome Global_ :=
  getModuleElement (globalsMap M) name.
Definition getEvent (M : Module_) (name : Name) : Outcome Event :=
  getModuleElement (eventsMap M) name.

Definition getExportOrNull (M : Module_) (name : Name) : option Export_ :=
  getModuleElementOrNull (exportsMap M) name.
Definition getFunctionOrNull (M : Module_) (name : Name) : option Function :=
  getModuleElementOrNull (functionsMap M) name.
Definition getGlobalOrNull (M : Module_) (name : Name) : option Global_ :=
  getModuleElementOrNull (globalsMap M) name.
Definition getEventOrNull (M : Module_) (name : Name) : option Event :=
  getModuleElementOrNull (eventsMap M) name.

Definition addExport (curr : Export_) (M : Module_) : Module_ :=
  setExports M (addModuleElement Export_name (exports M) (exportsMap M) curr).
Definition addFunction (curr : Function) (M : Module_) : Module_ :=
  setFunctions M
    (addModuleElement Function_name (functions M) (functionsMap M) curr).
Definition addGlobal (curr : Global_) (M : Module_) : Module_ :=
  setGlobals M (addModuleElement Global_name (globals M) (globalsMap M) curr).
Definition addEvent (curr : Event) (M : Module_) : Module_ :=
  setEvents M (addModuleElement Event_name (events M) (eventsMap M) curr).

Definition removeExport (name : Name) (M : Module_) : Module_ :=
  setExports M
    (removeModuleElement Export_name (exports M) (exportsMap M) name).
Definition removeFunction (name : Name) (M : Module_) : Module_ :=
  setFunctions M
    (removeModuleElement Function_name (functions M) (functionsMap M) name).
Definition removeGlobal (name : Name) (M : Module_) : Module_ :=
  setGlobals M
    (removeModuleElement Global_name (globals M) (globalsMap M) name).
Definition removeEvent (name : Name) (M : Module_) : Module_ :=
  setEvents M (removeModuleElement Event_name (events M) (eventsMap M) name).

(** The four entity kinds of the registry, to state a property once for
    all of them. *)
Inductive EntityKind : Set := AnExport | AFunction | AGlobal | AnEvent.

Definition Entity (k : EntityKind) : Type :=
  match k with
  | AnExport => Export_
  | AFunction => Function
  | AGlobal => Global_
  | AnEvent => Event
  end.

Definition entityName (k : EntityKind) : Entity k -> Name :=
  match k with
  | AnExport => Export_name
  | AFunction => Function_name
  | AGlobal => Global_name
  | AnEvent => Event_name
  end.

Definition entityMap (k : EntityKind) : Module_ -> gmap Name (Entity k) :=
  match k with
  | AnExport => exportsMap
  | AFunction => functionsMap
  | AGlobal => globalsMap
  | AnEvent => eventsMap
  end.

Definition add (k : EntityKind) : Entity k -> Module_ -> Module_ :=
  match k with
  | AnExport => addExport
  | AFunction => addFunction
  | AGlobal => addGlobal
  | AnEvent => addEvent
  end.

Definition get (k : EntityKind) : Module_ -> Name -> Outcome (Entity k) :=
  match k with
  | AnExport => getExport
  | AFunction => getFunction
  | AGlobal => getGlobal
  | AnEvent => getEvent
  end.

Definition getOrNull (k : EntityKind) : Module_ -> Name -> option (Entity k) :=
  match k with
  | AnExport => getExportOrNull
  | AFunction => getFunctionOrNull
  | AGlobal => getGlobalOrNull
  | AnEvent => getEventOrNull
  end.

Definition remove (k : EntityKind) : Name -> Module_ -> Module_ :=
  match k with
  | AnExport => removeExport
  | AFunction => removeFunction
  | AGlobal => removeGlobal
  | AnEvent => removeEvent
  end.

(** ** Further members defined in wasm.h *)

(** *** [struct Address] *)

(** [Address() : addr(0) {}] *)
Definition Address_default : Z := 0.

(** [Address& operator=(uint64_t a) { addr = a; return *this; }] *)
Definition Address_assign (self a : Z) : Z := uint64_t a.

(** [operator address64_t() const { return addr; }] *)
Definition Address_to_uint64 (self : Z) : Z := self.

(** [Address& operator++() { ++addr; return *this; }] on a [uint64_t]. *)
Definition Address_incr (self : Z) : Z := uint64_t (self + 1).

(** *** [struct Function::DebugLocation]

    The three fields are [BinaryLocation]s ([uint32_t]); the operators
    compare them as integers. *)

Module DebugLocation.

Record t : Type := mk {
  fileIndex : Z;
  lineNumber : Z;
  columnNumber : Z
}.

(** [bool operator==(const DebugLocation& other) const] *)
Definition operator_eq (self other : t) : bool :=
  (fileIndex self =? fileIndex other)
  && (lineNumber self =? lineNumber other)
  && (columnNumber self =? columnNumber other).

(** [bool operator!=(const DebugLocation& other) const]: the negation of
    [operator==] on the same operands. *)
Definition operator_ne (self other : t) : bool := negb (operator_eq self other).

(** [bool operator<(const DebugLocation& other) const]: the nested
    conditional expression. *)
Definition operator_lt (self other : t) : bool :=
  if negb (fileIndex self =? fileIndex other)
  then fileIndex self <? fileIndex other
  else if negb (lineNumber self =? lineNumber other)
       then lineNumber self <? lineNumber other
       else columnNumber self <? columnNumber other.

End DebugLocation.

(** *** [struct BinaryLocations::DelimiterLocations] and [enum DelimiterId] *)

Inductive DelimiterId : Set :=
| Delimiter_End       (* End = 0 *)
| Delimiter_Else      (* Else = 1 *)
| Delimiter_Catch     (* Catch = 1 *)
| Delimiter_Invalid.  (* Invalid = -1 *)

Definition DelimiterId_int (id : DelimiterId) : Z :=
  match id with
  | Delimiter_End => 0
  | Delimiter_Else => 1
  | Delimiter_Catch => 1
  | Delimiter_Invalid => -1
  end.

(** [DelimiterLocations() { for (auto& item : *this) { item = 0; } }] over
    the [std::array<BinaryLocation, 2>] it derives from, whose elements are
    indeterminate before the loop runs: [raw] is that array. *)
Definition DelimiterLocations_ctor (raw : list Z) : list Z :=
  map (fun _ => 0) raw.

(** [locs[id]]: the array element at the position the id denotes; there is
    none for an index outside the array. *)
Definition DelimiterLocations_at (locs : list Z) (id : DelimiterId) : option Z :=
  if DelimiterId_int id <? 0 then None
  else locs !! Z.to_nat (DelimiterId_int id).

(** [locs[id] = v] *)
Definition DelimiterLocations_set (locs : list Z) (id : DelimiterId) (v : Z)
  : list Z :=
  if DelimiterId_int id <? 0 then locs
  else <[Z.to_nat (DelimiterId_int id) := v]> locs.

(** *** [Table::clear], [Memory::clear] and the segment constructors *)

(** [void clear()] of [Table]; the string literal assigned to [name] is the
    empty name, and the inherited [module] and [base] are not assigned. *)
Definition Table_clear (tb : Table.t) : Table.t :=
  {| Table.importable := Table.importable tb;
     Table.exists_ := false;
     Table.name := Some ""%string;
     Table.initial := Address 0;
     Table.max := Address Table.kMaxSize;
     Table.segments := [] |}.

(** [void clear()] of [Memory]. *)
Definition Memory_clear (mem : Memory.t) : Memory.t :=
  {| Memory.importable := Memory.importable mem;
     Memory.exists_ := false;
     Memory.name := Some ""%string;
     Memory.initial := Address 0;
     Memory.max := Address Memory.kMaxSize32;
     Memory.segments := [];
     Memory.shared := false;
     Memory.indexType := i32 |}.

(** [std::vector<char>::resize(n)]: keeps the first [n] elements and pads
    with value-initialised ones. *)
Definition resize (n : nat) (v : list Z) : list Z :=
  take n v ++ replicate (n - length v) 0.

(** [std::copy_n(init, n, dest.begin())], [init] being the chars readable
    at the source pointer; reading or writing past either end is undefined,
    which [None] stands for. *)
Definition copy_n (init : list Z) (n : nat) (dest : list Z) : option (list Z) :=
  if ((n <=? length init) && (n <=? length dest))%nat
  then Some (take n init ++ drop n dest)
  else None.

(** [Segment(bool isPassive, Expression* offset, const char* init,
             Address size)] of [Memory]:
    [data.resize(size); std::copy_n(init, size, data.begin());]. *)
Definition Memory_Segment_passive (isPassive : bool)
  (offset : option Expression) (init : list Z) (size : Z)
  : option Memory.Segment :=
  match copy_n init (Z.to_nat size) (resize (Z.to_nat size) []) with
  | Some data => Some (Memory.mkSegment isPassive offset data)
  | None => None
  end.

(** [Segment(Expression* offset, const char* init, Address size)] of
    [Memory]: the same body, over the member initializer
    [isPassive = false]. *)
Definition Memory_Segment_buffer (offset : option Expression) (init : list Z)
  (size : Z) : option Memory.Segment :=
  Memory_Segment_passive false offset init size.

(** [Segment(Expression* offset, std::vector<char>& init)] of [Memory]:
    [data.swap(init)] exchanges the still empty [data] with the caller's
    vector; the result is the segment and what is left in that vector. *)
Definition Memory_Segment_vector (offset : option Expression) (init : list Z)
  : Memory.Segment * list Z :=
  (Memory.mkSegment false offset init, []).

(** [Segment(Expression* offset, std::vector<Name>& init)] of [Table]. *)
Definition Table_Segment_vector (offset : option Expression) (init : list Name)
  : Table.Segment * list Name :=
  (Table.mkSegment offset init, []).

(** *** Constructors and ids *)

(** Classes with a member allocated in the arena ([ExpressionList] or
    [ArenaVector<Name>]), which their constructor initialises from the
    allocator: [list(allocator)], [targets(allocator)],
    [operands(allocator)]. *)
Definition hasArenaVector (k : Id) : bool :=
  match k with
  | BlockId | SwitchId | CallId | CallIndirectId | ThrowId | TupleMakeId => true
  | _ => false
  end.

(** The enumerators of [Expression::Id], in the order of declaration. *)
Definition allIds : list Id :=
  [InvalidId; BlockId; IfId; LoopId; BreakId; SwitchId; CallId;
   CallIndirectId; LocalGetId; LocalSetId; GlobalGetId; GlobalSetId; LoadId;
   StoreId; ConstId; UnaryId; BinaryId; SelectId; DropId; ReturnId;
   MemorySizeId; MemoryGrowId; NopId; UnreachableId; AtomicRMWId;
   AtomicCmpxchgId; AtomicWaitId; AtomicNotifyId; AtomicFenceId;
   SIMDExtractId; SIMDReplaceId; SIMDShuffleId; SIMDTernaryId; SIMDShiftId;
   SIMDLoadId; MemoryInitId; DataDropId; MemoryCopyId; MemoryFillId; PopId;
   RefNullId; RefIsNullId; RefFuncId; RefEqId; TryId; ThrowId; RethrowId;
   BrOnExnId; TupleMakeId; TupleExtractId; I31NewId; I31GetId; RefTestId;
   RefCastId; BrOnCastId; RttCanonId; RttSubId; StructNewId; StructGetId;
   StructSetId; ArrayNewId; ArrayGetId; ArraySetId; ArrayLenId;
   NumExpressionIds].

(** * Properties *)

(** ** Kind tags *)

Lemma int_inj (a b : Id) : int a = int b -> a = b.
Proof.
  destruct a, b; simpl; intros H; first [reflexivity | discriminate H].
Qed.

Lemma int_eqb_iff (a b : Id) : (int a =? int b) = true <-> a = b.
Proof.
  rewrite Z.eqb_eq. split; [apply int_inj | intros ->; reflexivity].
Qed.

Lemma int_eqb_ne (a b : Id) : a <> b -> (int a =? int b) = false.
Proof.
  intros Hne. apply Z.eqb_neq. intros H. apply Hne, int_inj, H.
Qed.

Lemma cast_same (e : Expression) : cast (_id e) e = Ok e.
Proof. unfold cast. rewrite Z.eqb_refl. reflexivity. Qed.

(** C5. For a node [e] whose kind tag is [K], the test [is<K>] is true and
    [is<K2>] is false for every other kind [K2]; [dynCast<K>] returns the
    node itself and [dynCast<K2>] returns null; [cast<K2>] fails fatally (on
    its assertion). *)
Theorem kind_tag_queries (e : Expression) (K K2 : Id) :
  _id e = K -> K2 <> K ->
  is_ K e = true /\ is_ K2 e = false /\
  dynCast K e = Some e /\ dynCast K2 e = None /\
  cast K2 e = Fatal AssertionFailed.
Proof.
  intros HK Hne. unfold is_, dynCast, cast. rewrite HK.
  rewrite Z.eqb_refl.
  assert (Hf : (int K =? int K2) = false).
  { apply int_eqb_ne. intros ->. apply Hne. reflexivity. }
  rewrite Hf. repeat split.
Qed.

Lemma kind_tag_queries_witness :
  let e := If none None None None in
  _id e = IfId /\ BlockId <> IfId /\
  is_ IfId e = true /\ is_ BlockId e = false /\
  dynCast IfId e = Some e /\ dynCast BlockId e = None /\
  cast BlockId e = Fatal AssertionFailed.
Proof.
  split; [reflexivity | split; [discriminate |]].
  apply (kind_tag_queries (If none None None None) IfId BlockId);
    [reflexivity | discriminate].
Defined.

(** ** Constructors *)

Lemma construct_arena_total (k : Id) :
  isClass k = true -> is_Some (construct k ArenaCtor).
Proof.
  intros H. unfold construct. rewrite H. simpl. eexists. reflexivity.
Qed.

(** C9. A newly constructed node has type "none", except that an
    arena-constructed Break or Switch and every Return, Unreachable and
    BrOnExn start as "unreachable", and MemorySize and MemoryGrow start as
    i32; a default-constructed Break starts as "none". *)
Theorem construction_default_types (k : Id) (c : Ctor) (e : Expression) :
  construct k c = Some e ->
  _id e = k /\
  (k = ReturnId \/ k = UnreachableId \/ k = BrOnExnId -> type e = unreachable) /\
  (k = BreakId \/ k = SwitchId -> c = ArenaCtor -> type e = unreachable) /\
  (k = MemorySizeId \/ k = MemoryGrowId -> type e = i32) /\
  (k = BreakId -> c = DefaultCtor -> type e = none) /\
  (~ In k typedAtConstruction -> type e = none).
Proof.
  intros H.
  destruct k, c; simpl in H; try discriminate H;
    injection H as <-; simpl;
    (split; [reflexivity |]);
    repeat split; intros; try reflexivity;
    try (intuition discriminate);
    try (exfalso; simpl in *; intuition congruence).
Qed.

Lemma construction_default_types_witness :
  construct BreakId DefaultCtor = Some (Break none None None None) /\
  type (Break none None None None) = none.
Proof.
  split; [reflexivity |].
  destruct (construction_default_types BreakId DefaultCtor
              (Break none None None None) eq_refl) as (_ & _ & _ & _ & H & _).
  apply H; reflexivity.
Defined.

(** ** Size limits *)

(** C10. A default-constructed Memory has [max = kMaxSize32 = (4 * 1024 *
    1024 * 1024) / 65536 = 65536] pages, which differs from
    [kUnlimitedSize], so [hasMax()] is true; a default-constructed Table has
    [max = kMaxSize = Index(-1)], which equals [kUnlimitedSize], so
    [hasMax()] is false. *)
Theorem default_size_limits :
  Memory.max Memory.new = Memory.kMaxSize32 /\
  Memory.kPageSize = 64 * 1024 /\
  Memory.kMaxSize32 = (4 * 1024 * 1024 * 1024) / 65536 /\
  Memory.kMaxSize32 = 65536 /\
  Memory.kMaxSize32 <> Memory.kUnlimitedSize /\
  Memory.hasMax Memory.new = true /\
  Table.max Table.new = Table.kMaxSize /\
  Table.kMaxSize = Index (-1) /\
  Table.kMaxSize = Table.kUnlimitedSize /\
  Table.hasMax Table.new = false.
Proof.
  repeat split; try reflexivity.
  vm_compute. discriminate.
Qed.

(** ** Finalization *)

Section FinalizeProperties.

Variable operatorType : Id -> Z -> Type_ -> list Type_ -> Type_.

(** A Return leaves its constructor with type "unreachable", whichever
    constructor built it. *)
Lemma construct_Return (c : Ctor) (r : Expression) :
  construct ReturnId c = Some r -> r = Return unreachable None.
Proof. destruct c; simpl; intros H; injection H as <-; reflexivity. Qed.

(** [finalize] writes the type field only. *)
Lemma finalize_set_type (e e1 : Expression) :
  finalize operatorType e = Ok e1 -> e1 = set_type (type e1) e.
Proof.
  destruct e as [t n l | t c a b | t n b | t n v c | t ts d c v | t v
                | k t op l]; simpl.
  - intros H. injection H as <-. reflexivity.
  - destruct (If_finalize _ c a b); intros H; [| discriminate H].
    injection H as <-. reflexivity.
  - destruct (Loop_finalize b); intros H; [| discriminate H].
    injection H as <-. reflexivity.
  - intros H. injection H as <-. reflexivity.
  - intros H. injection H as <-. reflexivity.
  - intros H. injection H as <-. reflexivity.
  - destruct (stubMessage k); [discriminate |].
    destruct (inheritsFinalize k); intros H; injection H as <-; reflexivity.
Qed.

Lemma stubMessage_iff (k : Id) : is_Some (stubMessage k) <-> In k stubKinds.
Proof.
  split.
  - intros [msg H]. destruct k; simpl in H; try discriminate H;
      simpl; tauto.
  - simpl. intros H.
    repeat (destruct H as [<- | H]; [eexists; reflexivity |]).
    destruct H.
Qed.

(** C8. For every node of a stubbed kind (RefTest, RefCast, BrOnCast,
    RttCanon, RttSub, StructNew, StructGet, StructSet, ArrayNew, ArrayGet,
    ArraySet, ArrayLen), [finalize()] aborts fatally with the message of
    its [WASM_UNREACHABLE] and never returns a node with a type. *)
Theorem stub_finalize_aborts (e : Expression) :
  In (_id e) stubKinds ->
  (exists msg, stubMessage (_id e) = Some msg /\
               finalize operatorType e = Fatal (Abort msg)) /\
  (forall e1, finalize operatorType e <> Ok e1).
Proof.
  intros Hin. apply stubMessage_iff in Hin as [msg Hmsg].
  assert (Hfin : finalize operatorType e = Fatal (Abort msg)).
  { destruct e; simpl in Hmsg; try discriminate Hmsg.
    simpl. rewrite Hmsg. reflexivity. }
  split.
  - exists msg. split; assumption.
  - intros e1 H. rewrite Hfin in H. discriminate H.
Qed.

(** C3 (as amended). Break and Switch nodes finalize to "unreachable"
    whatever their value, condition and targets are.  For a Return,
    [finalize()] is the inherited empty function: it leaves the node, and so
    its type, as it is; the type is "unreachable" after it for every Return
    that still has the type its constructor assigned, whatever its value
    is. *)
Theorem branch_nodes_finalize_unreachable :
  (forall ty name value condition,
      finalize operatorType (Break ty name value condition)
      = Ok (Break unreachable name value condition)) /\
  (forall ty targets default_ condition value,
      finalize operatorType (Switch ty targets default_ condition value)
      = Ok (Switch unreachable targets default_ condition value)) /\
  (forall ty value,
      finalize operatorType (Return ty value) = Ok (Return ty value)) /\
  (forall c ty value0 value,
      construct ReturnId c = Some (Return ty value0) ->
      finalize operatorType (Return ty value) = Ok (Return unreachable value)).
Proof.
  split; [| split; [| split]].
  - reflexivity.
  - reflexivity.
  - reflexivity.
  - intros c ty v0 v H. apply construct_Return in H.
    injection H as -> _. reflexivity.
Qed.

(** The cases of an If on which the spec agrees with itself: without an
    else-branch and with a then-branch that is not unreachable the type is
    "none"; with both branches it is their common type, for which
    "unreachable" is the identity element.  Without an else-branch and with
    an unreachable then-branch the type is the answer of the rule. *)
Lemma If_finalize_settled_cases (ty : Type_) (c t : Expression) :
  (type t <> unreachable ->
   finalize operatorType (If ty (Some c) (Some t) None)
   = Ok (If none (Some c) (Some t) None)) /\
  (type t = unreachable ->
   finalize operatorType (If ty (Some c) (Some t) None)
   = Ok (If (operatorType IfId 0 ty [type c; unreachable])
            (Some c) (Some t) None)) /\
  (forall f : Expression,
      finalize operatorType (If ty (Some c) (Some t) (Some f))
      = Ok (If (commonType (type t) (type f)) (Some c) (Some t) (Some f)) /\
      (type t = unreachable -> commonType (type t) (type f) = type f) /\
      (type f = unreachable -> commonType (type t) (type f) = type t) /\
      (type t = type f -> commonType (type t) (type f) = type t)).
Proof.
  split; [| split].
  - intros H. simpl. unfold Type_eqb. rewrite bool_decide_eq_false_2 by exact H.
    reflexivity.
  - intros H. simpl. rewrite H. reflexivity.
  - intros f. split; [reflexivity |].
    unfold commonType, Type_eqb. repeat split; intros H.
    + rewrite H. reflexivity.
    + rewrite H. case_bool_decide as Ht; [symmetry; exact Ht | reflexivity].
    + rewrite <- H. repeat case_bool_decide; congruence.
Qed.



End FinalizeProperties.

(** The end-to-end scenario under the two answers for an If without an
    else-branch whose then-branch is a Return.  With "none" the If
    finalizes to "none" and the block to i32, the type of its last
    statement, as the scenario expects; with "unreachable" the If finalizes
    to "unreachable", the last statement of the block is not reachable and
    the block finalizes to "unreachable". *)
Lemma end_to_end_scenario :
  (finalize (fun _ _ _ _ => none) (scenarioIf none) = Ok (scenarioIf none) /\
   finalize (fun _ _ _ _ => none) (scenarioBlock none)
   = Ok (set_type i32 (scenarioBlock none))) /\
  (finalize (fun _ _ _ _ => unreachable) (scenarioIf none)
   = Ok (scenarioIf unreachable) /\
   finalize (fun _ _ _ _ => unreachable) (scenarioBlock unreachable)
   = Ok (set_type unreachable (scenarioBlock unreachable))).
Proof. repeat split. Qed.

(** A Return whose type was written over: [finalize()] hands it back with
    that type, which is not "unreachable". *)
Lemma finalize_Return_keeps_other_type :
  finalize firstOperandType (Return i32 None) = Ok (Return i32 None) /\
  type (Return i32 None) <> unreachable.
Proof. split; [reflexivity | discriminate]. Qed.

Lemma stub_finalize_aborts_witness :
  In (_id (Other StructNewId none 0 [])) stubKinds /\
  finalize firstOperandType (Other StructNewId none 0 [])
  = Fatal (Abort "TODO (gc): struct.new").
Proof.
  split; [simpl; tauto |].
  destruct (stub_finalize_aborts firstOperandType (Other StructNewId none 0 []))
    as [(msg & Hmsg & Hfin) _]; [simpl; tauto |].
  simpl in Hmsg. injection Hmsg as <-. exact Hfin.
Defined.

Lemma branch_nodes_finalize_unreachable_witness :
  construct ReturnId ArenaCtor = Some (Return unreachable None) /\
  finalize firstOperandType
    (Return unreachable (Some (Other ConstId i32 1 [])))
  = Ok (Return unreachable (Some (Other ConstId i32 1 []))).
Proof.
  split; [reflexivity |].
  destruct (branch_nodes_finalize_unreachable firstOperandType)
    as (_ & _ & _ & H).
  apply (H ArenaCtor unreachable None). reflexivity.
Defined.



(** ** Module registry *)

Section ModuleElementsProperties.

Context {Elem : Type} (nameOf : Elem -> Name).

Lemma getModuleElement_add (v : list Elem) (m : gmap Name Elem) (curr : Elem) :
  getModuleElement (addModuleElement nameOf v m curr).2 (nameOf curr) = Ok curr.
Proof.
  unfold getModuleElement, getModuleElementOrNull, addModuleElement. simpl.
  rewrite lookup_insert_eq. reflexivity.
Qed.

Lemma getModuleElementOrNull_remove (v : list Elem) (m : gmap Name Elem)
  (name : Name) :
  getModuleElementOrNull (removeModuleElement nameOf v m name).2 name = None.
Proof.
  unfold getModuleElementOrNull, removeModuleElement. simpl.
  apply lookup_delete_eq.
Qed.

Lemma getModuleElement_absent (m : gmap Name Elem) (name : Name) :
  m !! name = None ->
  getModuleElement m name = Fatal NotFound /\
  getModuleElementOrNull m name = None.
Proof.
  intros H. unfold getModuleElement, getModuleElementOrNull.
  rewrite H. split; reflexivity.
Qed.

(** The sequence follows: the added entity is its last element, and no
    element of the removed name is left in it. *)
Lemma addModuleElement_last (v : list Elem) (m : gmap Name Elem) (curr : Elem) :
  last (addModuleElement nameOf v m curr).1 = Some curr.
Proof. unfold addModuleElement. simpl. apply last_snoc. Qed.

Lemma removeModuleElement_gone (v : list Elem) (m : gmap Name Elem)
  (name : Name) (e : Elem) :
  e ∈ (removeModuleElement nameOf v m name).1 -> nameOf e <> name.
Proof.
  unfold removeModuleElement. simpl. rewrite list_elem_of_filter.
  intros [H _]. exact H.
Qed.

End ModuleElementsProperties.

(** The three laws of one registry, from the lemmas on its sequence and
    map. *)
Ltac registry_laws nameOf :=
  split; [apply (getModuleElement_add nameOf) |];
  split; [apply (getModuleElementOrNull_remove nameOf) |];
  apply getModuleElement_absent.

(** C4. For each entity kind (export, function, global, event): after
    [add(e)], [get(e.name)] returns [e]; after [remove(name)],
    [getOrNull(name)] is empty; and for a name absent from the registry,
    [get(name)] fails fatally while [getOrNull(name)] is empty. *)
Theorem registry_round_trip (k : EntityKind) (M : Module_) (e : Entity k)
  (name : Name) :
  get k (add k e M) (entityName k e) = Ok e /\
  getOrNull k (remove k name M) name = None /\
  (entityMap k M !! name = None ->
   get k M name = Fatal NotFound /\ getOrNull k M name = None).
Proof.
  destruct k; simpl in *.
  - registry_laws Export_name.
  - registry_laws Function_name.
  - registry_laws Global_name.
  - registry_laws Event_name.
Qed.

Lemma registry_round_trip_witness :
  let f := exampleFunction in
  functionsMap Module_new !! Some "g"%string = None /\
  getFunction (addFunction f Module_new) (Some "f"%string) = Ok f /\
  getFunctionOrNull (removeFunction (Some "g"%string) Module_new)
    (Some "g"%string) = None /\
  getFunction Module_new (Some "g"%string) = Fatal NotFound /\
  getFunctionOrNull Module_new (Some "g"%string) = None.
Proof.
  intros f.
  destruct (registry_round_trip AFunction Module_new f (Some "g"%string))
    as (Hadd & Hrem & Habs).
  split; [apply lookup_empty |].
  split; [exact Hadd |].
  split; [exact Hrem |].
  apply Habs. apply lookup_empty.
Defined.

(** ** Local names *)

Lemma namesInverse_empty (f : Function) :
  localNames f = ∅ -> localIndices f = ∅ -> namesInverse f.
Proof.
  intros Hn Hi i n. rewrite Hn, Hi, !lookup_empty. split; discriminate.
Qed.

Lemma getLocalType_names (f g : Function) (j : Z) :
  sig g = sig f -> vars g = vars f -> getLocalType g j = getLocalType f j.
Proof.
  intros Hs Hv.
  unfold getLocalType, isParam, isVar, getVarIndexBase, getNumLocals,
    getNumParams, getNumVars.
  rewrite Hs, Hv. reflexivity.
Qed.

(** Naming a second index with a name already in use leaves the first
    index with that name while the name now maps to the second index. *)
Lemma setLocalName_not_inverse :
  let f := setLocalName 0 (Some "x"%string) exampleFunction in
  namesInverse f /\
  0 <= 1 < getNumLocals f /\
  ~ namesInverse (setLocalName 1 (Some "x"%string) f).
Proof.
  intros f. split; [| split].
  - intros i n. unfold f. simpl.
    rewrite !lookup_insert_Some, !lookup_empty. split.
    + intros [[<- <-] | [_ H]]; [left; split; reflexivity | discriminate H].
    + intros [[<- <-] | [_ H]]; [left; split; reflexivity | discriminate H].
  - vm_compute. split; [discriminate | reflexivity].
  - intros Hinv. specialize (Hinv 0 (Some "x"%string)).
    unfold f in Hinv. simpl in Hinv.
    rewrite lookup_insert_ne in Hinv by discriminate.
    rewrite !lookup_insert_eq in Hinv.
    destruct Hinv as [Hinv _]. specialize (Hinv eq_refl). discriminate Hinv.
Qed.

(** C7 (as amended). For a valid local index [i] and a name [n], after
    [setLocalName(i, n)] both [getLocalName(i) == n] and
    [getLocalIndex(n) == i] hold; the two maps stay inverse to each other
    when, before the call, [i] has no name or is already named [n], and [n]
    names no index or already names [i]; [clearNames()] empties both maps and
    leaves [getLocalType(j)] as it was for every [j]. *)
Theorem local_naming_round_trip (f : Function) (i : Z) (n : Name) :
  0 <= i < getNumLocals f ->
  getLocalName (setLocalName i n f) i = Ok n /\
  getLocalIndex (setLocalName i n f) n = Ok i /\
  (namesInverse f ->
   localNames f !! i = None \/ localNames f !! i = Some n ->
   localIndices f !! n = None \/ localIndices f !! n = Some i ->
   namesInverse (setLocalName i n f)) /\
  localNames (clearNames f) = ∅ /\
  localIndices (clearNames f) = ∅ /\
  (forall j : Z, getLocalType (clearNames f) j = getLocalType f j).
Proof.
  intros _.
  split; [unfold getLocalName; simpl; rewrite lookup_insert_eq; reflexivity |].
  split; [unfold getLocalIndex; simpl; rewrite lookup_insert_eq; reflexivity |].
  split; [| split; [reflexivity | split; [reflexivity |]]].
  - intros Hinv Hi Hn j m. simpl.
    rewrite !lookup_insert_Some. split.
    + intros [[<- <-] | [Hne H]]; [left; split; reflexivity |].
      right. apply Hinv in H. split; [| exact H].
      intros <-. destruct Hn as [Hn | Hn]; rewrite Hn in H; congruence.
    + intros [[<- <-] | [Hne H]]; [left; split; reflexivity |].
      right. apply Hinv in H. split; [| exact H].
      intros <-. destruct Hi as [Hi | Hi]; rewrite Hi in H; congruence.
  - intros j. apply getLocalType_names; reflexivity.
Qed.

Lemma local_naming_round_trip_witness :
  let f := exampleFunction in
  0 <= 1 < getNumLocals f /\
  getLocalName (setLocalName 1 (Some "x"%string) f) 1 = Ok (Some "x"%string) /\
  getLocalIndex (setLocalName 1 (Some "x"%string) f) (Some "x"%string) = Ok 1 /\
  namesInverse (setLocalName 1 (Some "x"%string) f) /\
  getLocalType (clearNames (setLocalName 1 (Some "x"%string) f)) 1 = Ok i64.
Proof.
  intros f.
  assert (Hvalid : 0 <= 1 < getNumLocals f) by (vm_compute; split; [discriminate | reflexivity]).
  destruct (local_naming_round_trip f 1 (Some "x"%string) Hvalid)
    as (Hname & Hindex & Hinv & _).
  destruct (local_naming_round_trip (setLocalName 1 (Some "x"%string) f) 1
              (Some "x"%string) Hvalid) as (_ & _ & _ & _ & _ & Htype).
  split; [exact Hvalid |].
  split; [exact Hname |].
  split; [exact Hindex |].
  split.
  - apply Hinv.
    + apply namesInverse_empty; reflexivity.
    + left. apply lookup_empty.
    + left. apply lookup_empty.
  - rewrite Htype. reflexivity.
Defined.

(** * Further properties of the members defined in wasm.h *)

(** ** Debug locations *)

(** Case analysis on the field comparisons of the [DebugLocation]
    operators, leaving linear arithmetic. *)
Ltac debugloc_cases :=
  repeat match goal with
         | a : DebugLocation.t |- _ => destruct a
         end;
  unfold DebugLocation.operator_ne, DebugLocation.operator_eq,
    DebugLocation.operator_lt in *;
  simpl in *;
  repeat match goal with
         | |- context [?x =? ?y] => destruct (Z.eqb_spec x y); simpl in *
         | H : context [?x =? ?y] |- _ => destruct (Z.eqb_spec x y); simpl in *
         | |- context [?x <? ?y] => destruct (Z.ltb_spec x y); simpl in *
         | H : context [?x <? ?y] |- _ => destruct (Z.ltb_spec x y); simpl in *
         end.

(** X1. [operator==] holds exactly for two locations with the same three
    fields, and [operator!=] exactly for two that differ in a field. *)
Theorem DebugLocation_eq_iff (a b : DebugLocation.t) :
  (DebugLocation.operator_eq a b = true <-> a = b) /\
  (DebugLocation.operator_ne a b = true <-> a <> b).
Proof.
  split; split; intros H; debugloc_cases;
    try reflexivity; try discriminate; congruence.
Qed.

(** X2. [operator<] is the lexicographic order on file index, then line
    number, then column number. *)
Theorem DebugLocation_lt_lexicographic (a b : DebugLocation.t) :
  DebugLocation.operator_lt a b = true <->
  DebugLocation.fileIndex a < DebugLocation.fileIndex b \/
  (DebugLocation.fileIndex a = DebugLocation.fileIndex b /\
   (DebugLocation.lineNumber a < DebugLocation.lineNumber b \/
    (DebugLocation.lineNumber a = DebugLocation.lineNumber b /\
     DebugLocation.columnNumber a < DebugLocation.columnNumber b))).
Proof.
  split; intros H; debugloc_cases; try reflexivity; try discriminate; lia.
Qed.

(** X3. [operator<] is a strict order: no location is below itself, the
    relation is transitive, and it never holds in both directions. *)
Theorem DebugLocation_lt_strict_order (a b c : DebugLocation.t) :
  DebugLocation.operator_lt a a = false /\
  (DebugLocation.operator_lt a b = true ->
   DebugLocation.operator_lt b c = true ->
   DebugLocation.operator_lt a c = true) /\
  (DebugLocation.operator_lt a b = true ->
   DebugLocation.operator_lt b a = false).
Proof.
  split; [| split].
  - debugloc_cases; try reflexivity; lia.
  - intros H1 H2. debugloc_cases; try reflexivity; try discriminate; lia.
  - intros H1. debugloc_cases; try reflexivity; try discriminate; lia.
Qed.

Lemma DebugLocation_lt_strict_order_witness :
  let a := DebugLocation.mk 1 9 9 in
  let b := DebugLocation.mk 2 0 7 in
  let c := DebugLocation.mk 2 0 8 in
  DebugLocation.operator_lt a b = true /\
  DebugLocation.operator_lt b c = true /\
  DebugLocation.operator_lt a c = true /\
  DebugLocation.operator_lt b a = false.
Proof.
  intros a b c.
  destruct (DebugLocation_lt_strict_order a b c) as (_ & Htrans & Hasym).
  split; [reflexivity |].
  split; [reflexivity |].
  split; [apply Htrans; reflexivity | apply Hasym; reflexivity].
Defined.

(** X4. Of [a < b], [a == b] and [b < a] exactly one holds: two locations
    that [operator<] does not order are the ones [operator==] equates. *)
Theorem DebugLocation_lt_trichotomy (a b : DebugLocation.t) :
  (DebugLocation.operator_lt a b = true /\
   DebugLocation.operator_eq a b = false /\
   DebugLocation.operator_lt b a = false) \/
  (DebugLocation.operator_lt a b = false /\
   DebugLocation.operator_eq a b = true /\
   DebugLocation.operator_lt b a = false) \/
  (DebugLocation.operator_lt a b = false /\
   DebugLocation.operator_eq a b = false /\
   DebugLocation.operator_lt b a = true).
Proof.
  debugloc_cases; try lia;
    first [ left; repeat split; reflexivity
          | right; left; repeat split; reflexivity
          | right; right; repeat split; reflexivity ].
Qed.

(** ** Addresses and size sentinels *)

Lemma uint64_t_range (z : Z) : 0 <= uint64_t z < 2 ^ 64.
Proof. unfold uint64_t. apply Z.mod_pos_bound. reflexivity. Qed.

(** X5. Incrementing an address [n] times adds [n] modulo [2^64]: the
    counter wraps around to zero past the largest address, and never leaves
    the 64-bit range. *)
Theorem Address_incr_iter (a : Z) (n : nat) :
  0 <= a < 2 ^ 64 ->
  Nat.iter n Address_incr a = (a + Z.of_nat n) mod 2 ^ 64 /\
  0 <= Nat.iter n Address_incr a < 2 ^ 64.
Proof.
  intros Ha.
  assert (H : Nat.iter n Address_incr a = (a + Z.of_nat n) mod 2 ^ 64).
  { induction n as [| n IH].
    - simpl. rewrite Z.add_0_r. symmetry. apply Z.mod_small. exact Ha.
    - rewrite Nat.iter_succ, IH. unfold Address_incr, uint64_t.
      rewrite Zplus_mod_idemp_l. f_equal. lia. }
  split; [exact H |].
  rewrite H. apply Z.mod_pos_bound. reflexivity.
Qed.

Lemma Address_incr_iter_witness :
  0 <= 2 ^ 64 - 2 < 2 ^ 64 /\
  Nat.iter 3 Address_incr (2 ^ 64 - 2) = 1.
Proof.
  split; [split; [discriminate | reflexivity] |].
  destruct (Address_incr_iter (2 ^ 64 - 2) 3) as [H _];
    [split; [discriminate | reflexivity] |].
  rewrite H. reflexivity.
Defined.

(** X6. [Table::hasMax()] is false exactly for a max of [2^32 - 1] and
    [Memory::hasMax()] exactly for a max of [2^64 - 1]; so no max is
    unlimited for both a table and a memory. *)
Theorem hasMax_sentinels (tb : Table.t) (mem : Memory.t) :
  (Table.hasMax tb = false <-> Table.max tb = 4294967295) /\
  (Memory.hasMax mem = false <-> Memory.max mem = 18446744073709551615) /\
  (Table.max tb = Memory.max mem ->
   Table.hasMax tb = true \/ Memory.hasMax mem = true).
Proof.
  unfold Table.hasMax, Memory.hasMax.
  change (uint64_t Table.kUnlimitedSize) with 4294967295.
  change Memory.kUnlimitedSize with 18446744073709551615.
  rewrite !negb_false_iff, !negb_true_iff, !Z.eqb_eq, !Z.eqb_neq.
  split; [reflexivity | split; [reflexivity |]].
  intros H. lia.
Qed.

Lemma hasMax_sentinels_witness :
  let tb := Table_clear Table.new in
  let mem := Memory_clear Memory.new in
  Table.max tb = 4294967295 /\ Table.hasMax tb = false /\
  Memory.hasMax mem = true.
Proof.
  intros tb mem.
  destruct (hasMax_sentinels tb mem) as ([_ Ht] & _ & _).
  split; [reflexivity |].
  split; [apply Ht; reflexivity | reflexivity].
Defined.

(** ** Clearing a table or a memory *)

(** X7. [clear()] resets the sizes and segments but not the inherited
    import fields: a cleared table has no max and a cleared memory has the
    32-bit max and 32-bit indices, whatever they held before; an imported
    table or memory is still [imported()] after it, while no longer
    existing; and clearing again changes nothing. *)
Theorem clear_keeps_import (tb : Table.t) (mem : Memory.t) :
  Table.hasMax (Table_clear tb) = false /\
  Memory.hasMax (Memory_clear mem) = true /\
  Memory.is64 (Memory_clear mem) = false /\
  (imported (Table.importable tb) = true ->
   imported (Table.importable (Table_clear tb)) = true /\
   Table.exists_ (Table_clear tb) = false) /\
  (imported (Memory.importable mem) = true ->
   imported (Memory.importable (Memory_clear mem)) = true /\
   Memory.exists_ (Memory_clear mem) = false) /\
  Table_clear (Table_clear tb) = Table_clear tb /\
  Memory_clear (Memory_clear mem) = Memory_clear mem.
Proof.
  repeat split; try reflexivity; assumption.
Qed.

Lemma clear_keeps_import_witness :
  let imp := mkImportable (Some "env"%string) (Some "table"%string) in
  let tb := Table.mk imp true (Some "t"%string) 1 2 [] in
  let mem := Memory.mk imp true (Some "m"%string) 1 2 [] true i64 in
  imported (Table.importable tb) = true /\
  imported (Memory.importable mem) = true /\
  imported (Table.importable (Table_clear tb)) = true /\
  Table.exists_ (Table_clear tb) = false /\
  imported (Memory.importable (Memory_clear mem)) = true /\
  Memory.exists_ (Memory_clear mem) = false.
Proof.
  intros imp tb mem.
  destruct (clear_keeps_import tb mem) as (_ & _ & _ & Ht & Hm & _).
  split; [reflexivity |].
  split; [reflexivity |].
  destruct (Ht eq_refl) as [Ht1 Ht2].
  destruct (Hm eq_refl) as [Hm1 Hm2].
  repeat split; assumption.
Defined.

(** ** Segment constructors *)

Lemma resize_empty (n : nat) : resize n [] = replicate n 0.
Proof. unfold resize. rewrite take_nil. simpl. rewrite Nat.sub_0_r. reflexivity. Qed.

Lemma copy_n_resize (init : list Z) (n : nat) :
  (n <= length init)%nat ->
  copy_n init n (resize n []) = Some (take n init).
Proof.
  intros Hn. unfold copy_n. rewrite resize_empty, length_replicate.
  rewrite (proj2 (Nat.leb_le n (length init)) Hn), Nat.leb_refl. simpl.
  rewrite drop_ge by (rewrite length_replicate; lia).
  rewrite app_nil_r. reflexivity.
Qed.

(** X8. The buffer constructors of a memory segment, given at least [size]
    readable chars, build a segment holding exactly the first [size] of
    them; the three-argument one builds an active segment, the
    four-argument one keeps the flag it is given. *)
Theorem Memory_Segment_buffer_data (isPassive : bool)
  (offset : option Expression) (init : list Z) (size : Z) :
  0 <= size <= Z.of_nat (length init) ->
  exists data,
    data = take (Z.to_nat size) init /\
    Z.of_nat (length data) = size /\
    Memory_Segment_buffer offset init size
    = Some (Memory.mkSegment false offset data) /\
    Memory_Segment_passive isPassive offset init size
    = Some (Memory.mkSegment isPassive offset data).
Proof.
  intros Hsize. exists (take (Z.to_nat size) init).
  assert (Hn : (Z.to_nat size <= length init)%nat) by lia.
  split; [reflexivity |].
  split; [rewrite length_take; lia |].
  unfold Memory_Segment_buffer, Memory_Segment_passive.
  rewrite (copy_n_resize init (Z.to_nat size) Hn). split; reflexivity.
Qed.

Lemma Memory_Segment_buffer_data_witness :
  0 <= 2 <= Z.of_nat (length [104; 105; 33]) /\
  Memory_Segment_buffer None [104; 105; 33] 2
  = Some (Memory.mkSegment false None [104; 105]).
Proof.
  assert (H : 0 <= 2 <= Z.of_nat (length [104; 105; 33])).
  { simpl. lia. }
  split; [exact H |].
  destruct (Memory_Segment_buffer_data false None [104; 105; 33] 2 H)
    as (data & -> & _ & Hbuf & _).
  exact Hbuf.
Defined.

(** X9. The vector constructors of a segment take over the contents of the
    caller's vector and leave that vector empty; for a memory, the segment
    is the one the buffer constructor builds from the same chars. *)
Theorem Segment_vector_moves (offset : option Expression) (init : list Z)
  (names : list Name) :
  Memory.data (Memory_Segment_vector offset init).1 = init /\
  (Memory_Segment_vector offset init).2 = [] /\
  Memory_Segment_buffer offset init (Z.of_nat (length init))
  = Some (Memory_Segment_vector offset init).1 /\
  Table.data (Table_Segment_vector offset names).1 = names /\
  (Table_Segment_vector offset names).2 = [].
Proof.
  split; [reflexivity |]. split; [reflexivity |].
  split; [| split; reflexivity].
  unfold Memory_Segment_buffer, Memory_Segment_passive.
  rewrite Nat2Z.id, copy_n_resize by lia.
  rewrite firstn_all. reflexivity.
Qed.

(** ** Delimiter locations *)

(** X10. A freshly constructed [DelimiterLocations] reads zero at every
    delimiter id but [Invalid], which denotes no element; [Else] and
    [Catch] name the same element, apart from that of [End]. *)
Theorem DelimiterLocations_slots (raw : list Z) (id : DelimiterId) (v : Z) :
  length raw = 2%nat ->
  (id <> Delimiter_Invalid ->
   DelimiterLocations_at (DelimiterLocations_ctor raw) id = Some 0) /\
  DelimiterLocations_at raw Delimiter_Invalid = None /\
  DelimiterLocations_at (DelimiterLocations_set raw Delimiter_Else v)
    Delimiter_Catch = Some v /\
  DelimiterLocations_at (DelimiterLocations_set raw Delimiter_Else v)
    Delimiter_End = DelimiterLocations_at raw Delimiter_End.
Proof.
  intros Hlen.
  destruct raw as [| x [| y [| z raw]]]; try discriminate Hlen.
  repeat split.
  intros Hid. destruct id; try reflexivity. exfalso. apply Hid. reflexivity.
Qed.

Lemma DelimiterLocations_slots_witness :
  length [7; 9] = 2%nat /\ Delimiter_Catch <> Delimiter_Invalid /\
  DelimiterLocations_at (DelimiterLocations_ctor [7; 9]) Delimiter_Catch
  = Some 0.
Proof.
  split; [reflexivity |]. split; [discriminate |].
  destruct (DelimiterLocations_slots [7; 9] Delimiter_Catch 0 eq_refl)
    as (H & _).
  apply H. discriminate.
Defined.

(** ** Ids and constructors *)

Lemma allIds_lookup (k : Id) : allIds !! Z.to_nat (int k) = Some k.
Proof. destruct k; reflexivity. Qed.

Lemma allIds_int (n : nat) (k : Id) :
  allIds !! n = Some k -> int k = Z.of_nat n.
Proof.
  unfold allIds.
  do 65 (destruct n as [| n]; [intros [= <-]; reflexivity |]).
  intros H. discriminate H.
Qed.

(** X11. The ids are numbered without gaps: the values of [int] are exactly
    the integers from 0 to [NumExpressionIds], which so counts the ids
    before it, and the ids of the node classes are the ones strictly
    between [InvalidId] and [NumExpressionIds]. *)
Theorem Id_dense (z : Z) (k : Id) :
  (0 <= z <= int NumExpressionIds <-> exists k0, int k0 = z) /\
  Z.of_nat (length allIds) = int NumExpressionIds + 1 /\
  (isClass k = true <-> int InvalidId < int k < int NumExpressionIds).
Proof.
  split; [| split].
  - split.
    + intros Hz.
      destruct (lookup_lt_is_Some_2 allIds (Z.to_nat z)) as [k0 Hk0].
      { change (length allIds) with 65%nat. simpl in Hz. lia. }
      exists k0. rewrite (allIds_int _ _ Hk0). lia.
    + intros [k0 <-]. destruct k0; simpl; lia.
  - reflexivity.
  - destruct k; simpl; split; intros H; try reflexivity; try discriminate; lia.
Qed.

Lemma Id_dense_witness :
  0 <= 19 <= int NumExpressionIds /\ int ReturnId = 19 /\
  isClass ReturnId = true.
Proof.
  destruct (Id_dense 19 ReturnId) as (_ & _ & [_ Hclass]).
  split; [simpl; lia |]. split; [reflexivity |].
  apply Hclass. simpl. lia.
Defined.

(** X12. A class with a member allocated in the arena (Block, Switch, Call,
    CallIndirect, Throw, TupleMake) has no default constructor: its nodes
    are built with the allocator only. *)
Theorem arena_vector_needs_arena (k : Id) :
  hasArenaVector k = true ->
  construct k DefaultCtor = None /\
  exists e, construct k ArenaCtor = Some e /\ _id e = k.
Proof.
  intros H. destruct k; simpl in H; try discriminate H;
    (split; [reflexivity | eexists; split; reflexivity]).
Qed.

Lemma arena_vector_needs_arena_witness :
  hasArenaVector BlockId = true /\
  construct BlockId DefaultCtor = None /\
  construct BlockId ArenaCtor = Some (Block none None []).
Proof.
  destruct (arena_vector_needs_arena BlockId eq_refl) as [Hdef _].
  split; [reflexivity |]. split; [exact Hdef | reflexivity].
Defined.

(** X13. For every class that has both constructors, the default and the
    arena constructor build the same node, except for Break, whose arena
    constructor alone assigns a type. *)
Theorem constructors_agree_except_Break (k : Id) (e1 e2 : Expression) :
  construct k DefaultCtor = Some e1 ->
  construct k ArenaCtor = Some e2 ->
  (e1 = e2 <-> k <> BreakId).
Proof.
  intros H1 H2.
  destruct k; simpl in H1, H2; try discriminate H1;
    injection H1 as <-; injection H2 as <-;
    (split; [intros He Hk; (discriminate He || discriminate Hk) |
             intros Hk; first [reflexivity | exfalso; apply Hk; reflexivity]]).
Qed.

Lemma constructors_agree_except_Break_witness :
  construct ReturnId DefaultCtor = Some (Return unreachable None) /\
  construct ReturnId ArenaCtor = Some (Return unreachable None) /\
  construct BreakId DefaultCtor = Some (Break none None None None) /\
  construct BreakId ArenaCtor = Some (Break unreachable None None None) /\
  Break none None None None <> Break unreachable None None None.
Proof.
  split; [reflexivity |]. split; [reflexivity |].
  split; [reflexivity |]. split; [reflexivity |].
  intros He.
  destruct (constructors_agree_except_Break BreakId _ _ eq_refl eq_refl)
    as [H _].
  apply (H He). reflexivity.
Defined.

(** ** The inherited empty finalize *)

(** X14. For a node of a class that declares no [finalize] (Return, Nop,
    LocalGet, GlobalGet, Unreachable, Pop), [finalize()] returns the node as
    it is, whatever type it carries and whatever its children are: a type
    written over the one the constructor set is not put back. *)
Theorem inherited_finalize_identity
  (operatorType : Id -> Z -> Type_ -> list Type_ -> Type_)
  (k : Id) (ty : Type_) (value : option Expression) (op : Z)
  (operands : list Expression) :
  finalize operatorType (Return ty value) = Ok (Return ty value) /\
  (In k [NopId; LocalGetId; GlobalGetId; UnreachableId; PopId] ->
   finalize operatorType (Other k ty op operands)
   = Ok (Other k ty op operands)).
Proof.
  split; [reflexivity |].
  simpl. intros H.
  repeat (destruct H as [<- | H]; [reflexivity |]).
  destruct H.
Qed.

Lemma inherited_finalize_identity_witness :
  In UnreachableId [NopId; LocalGetId; GlobalGetId; UnreachableId; PopId] /\
  finalize firstOperandType (Other UnreachableId i32 0 [])
  = Ok (Other UnreachableId i32 0 []).
Proof.
  assert (Hin : In UnreachableId
                  [NopId; LocalGetId; GlobalGetId; UnreachableId; PopId]).
  { simpl. tauto. }
  split; [exact Hin |].
  destruct (inherited_finalize_identity firstOperandType UnreachableId i32
              None 0 []) as [_ H].
  apply H. exact Hin.
Defined.

(** ** Conversions between [Index] and [Address] *)

(** X15. An [Address] built from an [Index] holds the same value (the
    32-bit value is widened, not sign-extended), and narrowing it back gives
    the index again; assigning a 64-bit value and converting back returns
    it. *)
Theorem Index_Address_round_trip (z self a : Z) :
  Address (Index z) = Index z /\
  Index (Address (Index z)) = Index z /\
  (0 <= a < 2 ^ 64 -> Address_to_uint64 (Address_assign self a) = a).
Proof.
  unfold Address, Index, Address_to_uint64, Address_assign, uint64_t, uint32_t.
  assert (H32 : 0 <= z mod 2 ^ 32 < 2 ^ 32) by (apply Z.mod_pos_bound; reflexivity).
  assert (Hwiden : (z mod 2 ^ 32) mod 2 ^ 64 = z mod 2 ^ 32).
  { apply Z.mod_small. split; [lia |].
    apply Z.lt_trans with (2 ^ 32); [lia | reflexivity]. }
  split; [exact Hwiden |].
  split; [rewrite Hwiden; apply Z.mod_mod; discriminate |].
  intros Ha. apply Z.mod_small. exact Ha.
Qed.

Lemma Index_Address_round_trip_witness :
  0 <= 2 ^ 40 < 2 ^ 64 /\
  Address (Index (-1)) = 4294967295 /\
  Address_to_uint64 (Address_assign Address_default (2 ^ 40)) = 2 ^ 40.
Proof.
  destruct (Index_Address_round_trip (-1) Address_default (2 ^ 40))
    as (Hwiden & _ & Hassign).
  split; [split; [discriminate | reflexivity] |].
  split; [rewrite Hwiden; reflexivity |].
  apply Hassign. split; [discriminate | reflexivity].
Defined.
